(** * HeapPage: the slotted page of MiniBase (spacemgr/heappage.cpp)

    A shallow embedding of [HeapPage] and of its member functions, followed
    by the properties of the page that the specification states.

    Conventions of the embedding.

    - The header counters ([numOfSlots], [fillPtr], [freeSpace]) and the slot
      fields are signed machine integers in the source.  Signed overflow is
      undefined in C++, so the arithmetic is carried out in [Z]; the results
      are those of the program whenever every value fits its machine type.
    - [slots] and [data] are raw C arrays that the source indexes without any
      bounds check.  They are modelled as memories indexed by [Z]: an access
      outside the declared bounds reads or writes the memory at that index.
      What the page buffer holds outside the live part of an array (stale
      directory entries beyond [numOfSlots], bytes below the fill pointer)
      is part of the state, as it is in the source.  Overlap between the two
      arrays inside the page buffer is not represented.
    - [HEAPPAGE_DATA_SIZE], [sizeof(Slot)] and [INVALID_PAGE] are fixed by
      [heappage.h] and by the headers it includes; the development is
      parametric in them ([Config]).
    - A reference parameter that the source assigns ([rid], [nextRid],
      [length], the bytes behind [recPtr]) is passed in and returned, so that
      a path which does not assign it returns it as it was. *)

From Stdlib Require Import ZArith List Bool Lia.
From Stdlib Require Import Strings.Byte.
Import ListNotations.
Local Open Scope Z_scope.

(** ** Data *)

Inductive Status : Type := OK | DONE | FAIL.

Definition PageID : Type := Z.

Record RecordID : Type := mkRecordID { pageNo : PageID; slotNo : Z }.

Record Slot : Type := mkSlot { offset : Z; length : Z }.

Record HeapPage : Type := mkHeapPage {
  pid : PageID;
  nextPage : PageID;
  prevPage : PageID;
  numOfSlots : Z;
  fillPtr : Z;
  freeSpace : Z;
  type : Z;
  slots : Z -> Slot;
  data : Z -> byte
}.

(** [a[i] = v] on a raw array. *)
Definition store {A : Type} (a : Z -> A) (i : Z) (v : A) : Z -> A :=
  fun k => if k =? i then v else a k.

(** [memcpy(&d[dst], &d[src], n)] for two ranges of the same array that do
    not overlap.  A count that is not positive copies nothing. *)
Definition memcpy_within (d : Z -> byte) (dst src n : Z) : Z -> byte :=
  fun a => if (dst <=? a) && (a <? dst + n) then d (src + (a - dst)) else d a.

(** [memcpy(&d[dst], recPtr, n)] from a caller's buffer; a byte read past the
    end of the caller's buffer is taken as zero. *)
Definition memcpy_in (d : Z -> byte) (dst : Z) (recPtr : list byte) (n : Z)
  : Z -> byte :=
  fun a => if (dst <=? a) && (a <? dst + n)
           then nth (Z.to_nat (a - dst)) recPtr x00 else d a.

(** [memcpy(recPtr, &d[src], n)]: the [n] bytes that reach the caller. *)
Definition memcpy_out (d : Z -> byte) (src n : Z) : list byte :=
  map (fun k => d (src + Z.of_nat k)) (seq 0 (Z.to_nat n)).

(** The indices [start, start+1, ..., start+n-1]. *)
Fixpoint zseq (start : Z) (n : nat) : list Z :=
  match n with
  | O => []
  | S m => start :: zseq (start + 1) m
  end.

(** The field [length] of a slot, under a name that a parameter called
    [length] does not hide. *)
Definition slot_length (s : Slot) : Z := length s.

Definition slot_live (p : HeapPage) (i : Z) : bool :=
  negb (offset (slots p i) =? -1).

(** ** Member functions *)

(** What [heappage.h] fixes and the member functions use. *)
Class Config : Type := {
  HEAPPAGE_DATA_SIZE : Z;
  sizeof_Slot : Z;
  INVALID_PAGE : PageID
}.

Section Page.

Context {cfg : Config}.

Definition Init (p : HeapPage) (pageNo : PageID) : HeapPage :=
  mkHeapPage pageNo INVALID_PAGE INVALID_PAGE 0 0 HEAPPAGE_DATA_SIZE
             (type p) (slots p) (data p).

Definition SetNextPage (p : HeapPage) (pageNo : PageID) : HeapPage :=
  mkHeapPage (pid p) pageNo (prevPage p) (numOfSlots p) (fillPtr p)
             (freeSpace p) (type p) (slots p) (data p).

Definition SetPrevPage (p : HeapPage) (pageNo : PageID) : HeapPage :=
  mkHeapPage (pid p) (nextPage p) pageNo (numOfSlots p) (fillPtr p)
             (freeSpace p) (type p) (slots p) (data p).

Definition GetNextPage (p : HeapPage) : PageID := nextPage p.

Definition GetPrevPage (p : HeapPage) : PageID := prevPage p.

Definition InsertRecord (p : HeapPage) (recPtr : list byte) (length : Z)
  (rid : RecordID) : Status * HeapPage * RecordID :=
  if freeSpace p <? length then (DONE, p, rid)
  else
    let fillPtr1 := fillPtr p + length in
    let freeSpace1 := freeSpace p - length - sizeof_Slot in
    let slots1 :=
      store (slots p) (numOfSlots p)
            (mkSlot (HEAPPAGE_DATA_SIZE - fillPtr1) length) in
    let rid1 := mkRecordID (pid p) (numOfSlots p) in
    let numOfSlots1 := numOfSlots p + 1 in
    let data1 :=
      memcpy_in (data p) (offset (slots1 (numOfSlots1 - 1))) recPtr length in
    (OK,
     mkHeapPage (pid p) (nextPage p) (prevPage p) numOfSlots1 fillPtr1
                freeSpace1 (type p) slots1 data1,
     rid1).

(** The loop of [DeleteRecord]:
    [for (i = ...; i < numOfSlots; i++) { memcpy; slots[i].offset += rlength }].
    It runs at most [numOfSlots - i] times, which is the fuel it is given. *)
Fixpoint shift_records (fuel : nat) (n rlength i : Z)
  (sl : Z -> Slot) (d : Z -> byte) : (Z -> Slot) * (Z -> byte) :=
  match fuel with
  | O => (sl, d)
  | S f =>
      if i <? n then
        let d1 :=
          memcpy_within d (offset (sl i) + rlength) (offset (sl i)) rlength in
        let sl1 :=
          store sl i (mkSlot (offset (sl i) + rlength) (length (sl i))) in
        shift_records f n rlength (i + 1) sl1 d1
      else (sl, d)
  end.

Definition DeleteRecord (p : HeapPage) (rid : RecordID) : Status * HeapPage :=
  if negb (pageNo rid =? pid p) then (FAIL, p)
  else if offset (slots p (slotNo rid)) =? -1 then (FAIL, p)
  else
    let roffset := offset (slots p (slotNo rid)) in
    let rlength := length (slots p (slotNo rid)) in
    let slots1 := store (slots p) (slotNo rid) (mkSlot (-1) rlength) in
    let freeSpace1 := freeSpace p + rlength in
    let fillPtr1 := fillPtr p - rlength in
    let '(slots2, data2) :=
      shift_records (Z.to_nat (numOfSlots p - (slotNo rid + 1)))
                    (numOfSlots p) rlength (slotNo rid + 1)
                    slots1 (data p) in
    (OK,
     mkHeapPage (pid p) (nextPage p) (prevPage p) (numOfSlots p) fillPtr1
                freeSpace1 (type p) slots2 data2).

(** The scan shared by [FirstRecord] and [NextRecord]:
    [while (next < numOfSlots) { if (slots[next].offset != -1) return next; next++; }].
    It runs at most [numOfSlots - next] times. *)
Fixpoint find_valid (fuel : nat) (p : HeapPage) (next : Z) : option Z :=
  match fuel with
  | O => None
  | S f =>
      if next <? numOfSlots p then
        if negb (offset (slots p next) =? -1) then Some next
        else find_valid f p (next + 1)
      else None
  end.

Definition FirstRecord (p : HeapPage) (rid : RecordID) : Status * RecordID :=
  if numOfSlots p =? 0 then (DONE, rid)
  else
    match find_valid (Z.to_nat (numOfSlots p - 0)) p 0 with
    | Some first => (OK, mkRecordID (pid p) first)
    | None => (DONE, rid)
    end.

Definition NextRecord (p : HeapPage) (curRid nextRid : RecordID)
  : Status * RecordID :=
  if negb (pageNo curRid =? pid p) then (DONE, nextRid)
  else
    let next := slotNo curRid + 1 in
    match find_valid (Z.to_nat (numOfSlots p - next)) p next with
    | Some next1 => (OK, mkRecordID (pid p) next1)
    | None => (DONE, nextRid)
    end.

Definition GetRecord (p : HeapPage) (rid : RecordID) (recPtr : list byte)
  (length : Z) : Status * list byte * Z :=
  if negb (pageNo rid =? pid p) then (FAIL, recPtr, length)
  else if (slotNo rid >=? numOfSlots p)
          || (offset (slots p (slotNo rid)) =? -1)
  then (FAIL, recPtr, length)
  else
    let length1 := slot_length (slots p (slotNo rid)) in
    (OK, memcpy_out (data p) (offset (slots p (slotNo rid))) length1, length1).

(** [ReturnRecord] hands out [&data[offset]]: the index into [data]. *)
Definition ReturnRecord (p : HeapPage) (rid : RecordID) (recPtr : Z)
  (length : Z) : Status * Z * Z :=
  if negb (pageNo rid =? pid p) then (FAIL, recPtr, length)
  else if (slotNo rid >=? numOfSlots p)
          || (offset (slots p (slotNo rid)) =? -1)
  then (FAIL, recPtr, length)
  else
    (OK, offset (slots p (slotNo rid)),
     slot_length (slots p (slotNo rid))).

Definition AvailableSpace (p : HeapPage) : Z := freeSpace p.

Definition IsEmpty (p : HeapPage) : bool :=
  if numOfSlots p =? 0 then true
  else forallb (fun i => offset (slots p i) =? -1)
               (zseq 0 (Z.to_nat (numOfSlots p))).

(** First loop of [CompactSlotDir]:
    [while (end < numOfSlots && slots[end].offset == -1) end--;].
    The guard never stops the descent at index 0, so the number of rounds
    depends on what the buffer holds below the directory: the loop takes
    fuel and yields [None] when the fuel does not suffice. *)
Fixpoint skip_deleted (fuel : nat) (p : HeapPage) (end_ : Z) : option Z :=
  match fuel with
  | O => None
  | S f =>
      if (end_ <? numOfSlots p) && (offset (slots p end_) =? -1)
      then skip_deleted f p (end_ - 1)
      else Some end_
  end.

(** Second loop of [CompactSlotDir], [while (start < end) ...]; every round
    brings the cursors closer by at least one, so [end - start] rounds are
    enough.  Returns the final [start] and the directory. *)
Fixpoint compact_loop (fuel : nat) (start end_ : Z) (sl : Z -> Slot)
  : Z * (Z -> Slot) :=
  match fuel with
  | O => (start, sl)
  | S f =>
      if start <? end_ then
        if negb (offset (sl start) =? -1) then
          compact_loop f (start + 1) end_ sl
        else if offset (sl end_) =? -1 then
          compact_loop f start (end_ - 1) sl
        else
          compact_loop f (start + 1) (end_ - 1)
            (store sl start (mkSlot (offset (sl end_)) (length (sl end_))))
      else (start, sl)
  end.

Definition CompactSlotDir (fuel : nat) (p : HeapPage) : option HeapPage :=
  match skip_deleted fuel p (numOfSlots p - 1) with
  | None => None
  | Some end_ =>
      let '(start, slots1) :=
        compact_loop (Z.to_nat (end_ - 0)) 0 end_ (slots p) in
      Some (mkHeapPage (pid p) (nextPage p) (prevPage p) start (fillPtr p)
              (freeSpace p + sizeof_Slot * (numOfSlots p - start))
              (type p) slots1 (data p))
  end.

Definition GetNumOfRecords (p : HeapPage) : Z :=
  fold_left (fun toReturn i =>
               if offset (slots p i) =? -1 then toReturn - 1 else toReturn)
            (zseq 0 (Z.to_nat (numOfSlots p))) (numOfSlots p).

(** ** Derived notions *)

(** The free-space equation of the data model. *)
Definition accounting (p : HeapPage) : Prop :=
  freeSpace p = HEAPPAGE_DATA_SIZE - fillPtr p - numOfSlots p * sizeof_Slot.

(** The states a page goes through: [Init] on whatever the buffer frame
    holds, then any sequence of calls of the mutating member functions, with
    any arguments. *)
Inductive reachable : HeapPage -> Prop :=
| reach_Init : forall raw pageNo, reachable (Init raw pageNo)
| reach_SetNextPage : forall p pageNo,
    reachable p -> reachable (SetNextPage p pageNo)
| reach_SetPrevPage : forall p pageNo,
    reachable p -> reachable (SetPrevPage p pageNo)
| reach_InsertRecord : forall p recPtr length rid,
    reachable p -> reachable (snd (fst (InsertRecord p recPtr length rid)))
| reach_DeleteRecord : forall p rid,
    reachable p -> reachable (snd (DeleteRecord p rid))
| reach_CompactSlotDir : forall p fuel p',
    reachable p -> CompactSlotDir fuel p = Some p' -> reachable p'.

(** A caller's scan of the page: [FirstRecord], then [NextRecord] on the
    RecordID returned last, until a call answers [DONE].  The result is the
    list of RecordIDs returned with [OK]; [None] means that the fuel ran out
    before a call answered [DONE]. *)
Fixpoint next_records (fuel : nat) (p : HeapPage) (cur : RecordID)
  : option (list RecordID) :=
  match fuel with
  | O => None
  | S f =>
      match NextRecord p cur cur with
      | (OK, nextRid) => option_map (cons nextRid) (next_records f p nextRid)
      | (_, _) => Some []
      end
  end.

Definition all_records (fuel : nat) (p : HeapPage) (rid : RecordID)
  : option (list RecordID) :=
  match FirstRecord p rid with
  | (OK, first) => option_map (cons first) (next_records fuel p first)
  | (_, _) => Some []
  end.

(** The RecordIDs of the slots of the directory that are not deleted, in
    increasing order of slot index. *)
Definition live_rids (p : HeapPage) : list RecordID :=
  map (mkRecordID (pid p))
      (filter (slot_live p) (zseq 0 (Z.to_nat (numOfSlots p)))).

(** Every record of the directory lies at or above the fill line
    [HEAPPAGE_DATA_SIZE - fillPtr], where the next record will end. *)
Definition above_fill_line (p : HeapPage) : Prop :=
  forall k, 0 <= k < numOfSlots p -> offset (slots p k) <> -1 ->
            HEAPPAGE_DATA_SIZE - fillPtr p <= offset (slots p k).

(** The number of entries of a directory [sl] among the indices [a .. b]
    that are not deleted. *)
Definition live_between (sl : Z -> Slot) (a b : Z) : Z :=
  Z.of_nat (List.length
              (filter (fun i => negb (offset (sl i) =? -1))
                      (zseq a (Z.to_nat (b + 1 - a))))).

End Page.

(** ** A concrete page

    A configuration and a run used to evaluate the member functions: data
    area of 1000 bytes, slots of 8 bytes (two 32-bit integers), a buffer
    frame filled with zero bytes, and the scenario of the specification:
    insert "AAAA", insert "BBBBBB", delete the first, compact. *)

Module Run.

#[local] Instance config : Config :=
  {| HEAPPAGE_DATA_SIZE := 1000; sizeof_Slot := 8; INVALID_PAGE := -1 |}.

Definition zeroed : HeapPage :=
  mkHeapPage 0 0 0 0 0 0 0 (fun _ => mkSlot 0 0) (fun _ => x00).

Definition AAAA : list byte := [x41; x41; x41; x41].
Definition BBBBBB : list byte := [x42; x42; x42; x42; x42; x42].
Definition BBBBAA : list byte := [x42; x42; x42; x42; x41; x41].

Definition no_rid : RecordID := mkRecordID 0 0.
Definition rid0 : RecordID := mkRecordID 7 0.
Definition rid1 : RecordID := mkRecordID 7 1.

Definition insert (p : HeapPage) (r : list byte) : HeapPage :=
  snd (fst (InsertRecord p r
                         (Z.of_nat (List.length r)) no_rid)).

Definition empty_page : HeapPage := Init zeroed 7.
Definition one_record : HeapPage := insert empty_page AAAA.
Definition two_records : HeapPage := insert one_record BBBBBB.
Definition first_deleted : HeapPage := snd (DeleteRecord two_records rid0).
Definition compacted : HeapPage :=
  match CompactSlotDir 1 first_deleted with
  | Some p => p
  | None => first_deleted
  end.

(** Another run: delete the second record instead. *)
Definition second_deleted : HeapPage := snd (DeleteRecord two_records rid1).

(** A record that leaves less room than a slot takes. *)
Definition long_record : list byte := List.repeat x43 996.

(** A page of three records of four bytes. *)
Definition BBBB : list byte := [x42; x42; x42; x42].
Definition CCCC : list byte := [x43; x43; x43; x43].
Definition rid2 : RecordID := mkRecordID 7 2.
Definition three_equal : HeapPage := insert (insert one_record BBBB) CCCC.

End Run.

(** ** Properties *)

Section Properties.

Context {cfg : Config}.

Hypothesis sizeof_Slot_pos : 0 < sizeof_Slot.

(** *** Header fields after each mutating call *)

Lemma InsertRecord_DONE p recPtr length rid :
  freeSpace p < length ->
  InsertRecord p recPtr length rid = (DONE, p, rid).
Proof.
  intros H. unfold InsertRecord.
  apply Z.ltb_lt in H. rewrite H. reflexivity.
Qed.

Lemma InsertRecord_OK p recPtr length rid :
  length <= freeSpace p ->
  InsertRecord p recPtr length rid =
  (OK,
   mkHeapPage (pid p) (nextPage p) (prevPage p) (numOfSlots p + 1)
     (fillPtr p + length) (freeSpace p - length - sizeof_Slot) (type p)
     (store (slots p) (numOfSlots p)
        (mkSlot (HEAPPAGE_DATA_SIZE - (fillPtr p + length)) length))
     (memcpy_in (data p) (HEAPPAGE_DATA_SIZE - (fillPtr p + length))
        recPtr length),
   mkRecordID (pid p) (numOfSlots p)).
Proof.
  intros H. unfold InsertRecord.
  destruct (Z.ltb_spec (freeSpace p) length) as [Hlt | _]; [lia |].
  cbv zeta. unfold store at 2.
  replace (numOfSlots p + 1 - 1) with (numOfSlots p) by lia.
  rewrite Z.eqb_refl. reflexivity.
Qed.

Lemma DeleteRecord_header p rid :
  let p' := snd (DeleteRecord p rid) in
  pid p' = pid p /\ numOfSlots p' = numOfSlots p /\
  freeSpace p' + fillPtr p' = freeSpace p + fillPtr p.
Proof.
  unfold DeleteRecord.
  destruct (negb (pageNo rid =? pid p)); [simpl; auto |].
  destruct (offset (slots p (slotNo rid)) =? -1); [simpl; auto |].
  destruct (shift_records _ _ _ _ _ _) as [slots2 data2].
  simpl. repeat split; lia.
Qed.

Lemma compact_loop_start fuel : forall start end_ sl,
  0 <= start -> 0 <= fst (compact_loop fuel start end_ sl).
Proof.
  induction fuel as [| f IH]; intros start end_ sl Hs; simpl; [exact Hs |].
  destruct (start <? end_); [| exact Hs].
  destruct (negb (offset (sl start) =? -1)); [apply IH; lia |].
  destruct (offset (sl end_) =? -1); apply IH; lia.
Qed.

Lemma CompactSlotDir_header fuel p p' :
  CompactSlotDir fuel p = Some p' ->
  pid p' = pid p /\ fillPtr p' = fillPtr p /\ 0 <= numOfSlots p' /\
  freeSpace p' = freeSpace p + sizeof_Slot * (numOfSlots p - numOfSlots p').
Proof.
  unfold CompactSlotDir.
  destruct (skip_deleted fuel p (numOfSlots p - 1)) as [end_ |]; [| discriminate].
  pose proof (compact_loop_start (Z.to_nat (end_ - 0)) 0 end_ (slots p)) as Hs.
  destruct (compact_loop _ _ _ _) as [start slots1].
  intros H. injection H as <-. simpl in *. repeat split; lia.
Qed.

(** The first loop of [CompactSlotDir] stops as soon as it meets a slot that
    is not deleted: the call returns whenever the buffer holds one at or
    below the last directory entry, and more fuel does not change the
    result. *)
Lemma skip_deleted_returns p k : forall fuel end_,
  k <= end_ -> offset (slots p k) <> -1 ->
  (Z.to_nat (end_ - k) < fuel)%nat ->
  exists e, skip_deleted fuel p end_ = Some e /\ k <= e.
Proof.
  induction fuel as [| f IH]; intros end_ Hk Hlive Hf; [lia |].
  simpl.
  destruct ((end_ <? numOfSlots p) && (offset (slots p end_) =? -1)) eqn:E.
  - apply andb_true_iff in E. destruct E as [_ E]. apply Z.eqb_eq in E.
    assert (k <> end_) by (intros ->; contradiction).
    apply IH; [lia | assumption | lia].
  - exists end_. split; [reflexivity | lia].
Qed.

Lemma CompactSlotDir_returns p k :
  k < numOfSlots p -> offset (slots p k) <> -1 ->
  exists p', CompactSlotDir (S (Z.to_nat (numOfSlots p - 1 - k))) p = Some p'.
Proof.
  intros Hk Hlive. unfold CompactSlotDir.
  destruct (skip_deleted_returns p k (S (Z.to_nat (numOfSlots p - 1 - k)))
              (numOfSlots p - 1)) as [e [-> _]]; [lia | assumption | lia |].
  destruct (compact_loop _ _ _ _) as [start slots1]. eauto.
Qed.

Lemma reachable_wf p :
  reachable p -> accounting p /\ 0 <= numOfSlots p.
Proof.
  unfold accounting.
  induction 1 as [raw pageNo | p pageNo _ IH | p pageNo _ IH
                 | p recPtr length rid _ IH | p rid _ IH
                 | p fuel p' _ IH Hc]; simpl.
  - lia.
  - exact IH.
  - exact IH.
  - destruct (Z.lt_ge_cases (freeSpace p) length) as [Hlt | Hge].
    + rewrite InsertRecord_DONE by assumption. exact IH.
    + rewrite InsertRecord_OK by assumption. simpl. lia.
  - destruct (DeleteRecord_header p rid) as [_ [Hn Hs]]. lia.
  - destruct (CompactSlotDir_header fuel p p' Hc) as [_ [Hf [Hn Hs]]]. lia.
Qed.

(** *** The loops do not depend on their fuel

    Each bounded loop is given the number of rounds it can run at most; a
    larger count yields the same result.  The descent of [CompactSlotDir]
    keeps its result once it has returned one. *)

Lemma find_valid_fuel p : forall fuel next,
  (Z.to_nat (numOfSlots p - next) <= fuel)%nat ->
  find_valid fuel p next = find_valid (Z.to_nat (numOfSlots p - next)) p next.
Proof.
  induction fuel as [| f IH]; intros next Hf.
  - replace (Z.to_nat (numOfSlots p - next)) with O by lia. reflexivity.
  - destruct (Z.ltb_spec next (numOfSlots p)) as [Hlt | Hge].
    + replace (Z.to_nat (numOfSlots p - next))
        with (S (Z.to_nat (numOfSlots p - (next + 1)))) by lia.
      simpl. rewrite IH by lia. reflexivity.
    + replace (Z.to_nat (numOfSlots p - next)) with O by lia.
      simpl. destruct (Z.ltb_spec next (numOfSlots p)); [lia | reflexivity].
Qed.

Lemma shift_records_fuel : forall fuel n rlength i sl d,
  (Z.to_nat (n - i) <= fuel)%nat ->
  shift_records fuel n rlength i sl d =
  shift_records (Z.to_nat (n - i)) n rlength i sl d.
Proof.
  induction fuel as [| f IH]; intros n rlength i sl d Hf.
  - replace (Z.to_nat (n - i)) with O by lia. reflexivity.
  - destruct (Z.ltb_spec i n) as [Hlt | Hge].
    + replace (Z.to_nat (n - i)) with (S (Z.to_nat (n - (i + 1)))) by lia.
      simpl. destruct (Z.ltb_spec i n); [| lia]. apply IH. lia.
    + replace (Z.to_nat (n - i)) with O by lia.
      simpl. destruct (Z.ltb_spec i n); [lia | reflexivity].
Qed.

Lemma compact_loop_enough : forall fuel1 fuel2 start end_ sl,
  (Z.to_nat (end_ - start) <= fuel1)%nat ->
  (Z.to_nat (end_ - start) <= fuel2)%nat ->
  compact_loop fuel1 start end_ sl = compact_loop fuel2 start end_ sl.
Proof.
  induction fuel1 as [| f1 IH]; intros fuel2 start end_ sl H1 H2.
  - destruct fuel2 as [| f2]; simpl; [reflexivity |].
    destruct (Z.ltb_spec start end_); [lia | reflexivity].
  - destruct fuel2 as [| f2]; simpl.
    + destruct (Z.ltb_spec start end_); [lia | reflexivity].
    + destruct (Z.ltb_spec start end_); [| reflexivity].
      destruct (negb (offset (sl start) =? -1)); [apply IH; lia |].
      destruct (offset (sl end_) =? -1); apply IH; lia.
Qed.

Lemma compact_loop_fuel fuel start end_ sl :
  (Z.to_nat (end_ - start) <= fuel)%nat ->
  compact_loop fuel start end_ sl =
  compact_loop (Z.to_nat (end_ - start)) start end_ sl.
Proof. intros H. apply compact_loop_enough; lia. Qed.

Lemma skip_deleted_fuel p : forall fuel more end_ e,
  skip_deleted fuel p end_ = Some e ->
  skip_deleted (fuel + more) p end_ = Some e.
Proof.
  induction fuel as [| f IH]; intros more end_ e H; [discriminate |].
  simpl in *.
  destruct ((end_ <? numOfSlots p) && (offset (slots p end_) =? -1));
    [apply IH |]; exact H.
Qed.

Lemma CompactSlotDir_fuel fuel more p p' :
  CompactSlotDir fuel p = Some p' ->
  CompactSlotDir (fuel + more) p = Some p'.
Proof.
  unfold CompactSlotDir.
  destruct (skip_deleted fuel p (numOfSlots p - 1)) as [e |] eqn:E;
    [| discriminate].
  rewrite (skip_deleted_fuel p fuel more _ e E). auto.
Qed.

(** *** Bytes written and read back *)

Lemma map_seq_nth (f : nat -> byte) : forall (r : list byte),
  (forall k, (k < List.length r)%nat -> f k = nth k r x00) ->
  map f (seq 0 (List.length r)) = r.
Proof.
  intros r. revert f.
  induction r as [| b r IH]; intros f Hf; simpl; [reflexivity |].
  rewrite (Hf O) by (simpl; lia). simpl. f_equal.
  rewrite <- seq_shift, map_map.
  apply IH. intros k Hk. apply (Hf (S k)). simpl. lia.
Qed.

Lemma memcpy_out_in d dst recPtr :
  memcpy_out (memcpy_in d dst recPtr (Z.of_nat (List.length recPtr)))
             dst (Z.of_nat (List.length recPtr)) = recPtr.
Proof.
  unfold memcpy_out. rewrite Nat2Z.id.
  apply map_seq_nth. intros k Hk. unfold memcpy_in.
  destruct (Z.leb_spec dst (dst + Z.of_nat k)); [| lia].
  destruct (Z.ltb_spec (dst + Z.of_nat k)
                       (dst + Z.of_nat (List.length recPtr))); [| lia].
  simpl. f_equal. lia.
Qed.

(** *** The claims *)

(** C4. Free-space accounting: [freeSpace = HEAPPAGE_DATA_SIZE - fillPtr -
    numOfSlots * sizeof(Slot)] holds after [Init], every mutating member
    function preserves it whatever its arguments and its outcome
    ([CompactSlotDir] returns as soon as the buffer holds a slot that is not
    deleted at or below the last directory entry), and so it holds in every
    reachable state.  The other member functions do not assign any field of
    the page. *)
Theorem free_space_accounting :
  (forall raw pageNo, accounting (Init raw pageNo)) /\
  (forall p, accounting p ->
     (forall recPtr length rid,
        accounting (snd (fst (InsertRecord p recPtr length rid)))) /\
     (forall rid, accounting (snd (DeleteRecord p rid))) /\
     (forall fuel p', CompactSlotDir fuel p = Some p' -> accounting p') /\
     (forall k, k < numOfSlots p -> offset (slots p k) <> -1 ->
        exists fuel p', CompactSlotDir fuel p = Some p') /\
     (forall pageNo, accounting (SetNextPage p pageNo)) /\
     (forall pageNo, accounting (SetPrevPage p pageNo))) /\
  (forall p, reachable p -> accounting p).
Proof.
  split; [| split].
  - intros raw pageNo. unfold accounting. simpl. lia.
  - intros p Hp. unfold accounting in *. repeat split.
    + intros recPtr length rid.
      destruct (Z.lt_ge_cases (freeSpace p) length) as [Hlt | Hge].
      * rewrite InsertRecord_DONE by assumption. exact Hp.
      * rewrite InsertRecord_OK by assumption. simpl. lia.
    + intros rid. destruct (DeleteRecord_header p rid) as [_ [Hn Hs]]. lia.
    + intros fuel p' Hc.
      destruct (CompactSlotDir_header fuel p p' Hc) as [_ [Hf [_ Hs]]]. lia.
    + intros k Hk Hlive.
      destruct (CompactSlotDir_returns p k Hk Hlive) as [p' Hc]. eauto.
    + intros pageNo. exact Hp.
    + intros pageNo. exact Hp.
  - intros p Hr. apply reachable_wf. exact Hr.
Qed.

(** C5. Contract of [InsertRecord]: the call answers [DONE]
    (insufficient space) exactly when [length > freeSpace], and then leaves
    the page and [rid] as they were; otherwise it answers [OK], [rid] is
    [{pid, numOfSlots}] with the slot count of before the call, the new slot
    records offset [HEAPPAGE_DATA_SIZE - (fillPtr + length)] and [length],
    the bytes of the record lie at that offset, and [AvailableSpace] has gone
    down by [length + sizeof(Slot)]. *)
Theorem InsertRecord_contract p recPtr length rid :
  let '(status, p', rid') := InsertRecord p recPtr length rid in
  (status = DONE <-> length > freeSpace p) /\
  (status = DONE -> p' = p /\ rid' = rid) /\
  (status <> DONE ->
     status = OK /\
     rid' = mkRecordID (pid p) (numOfSlots p) /\
     numOfSlots p' = numOfSlots p + 1 /\
     slots p' (numOfSlots p) =
       mkSlot (HEAPPAGE_DATA_SIZE - (fillPtr p + length)) length /\
     (length = Z.of_nat (List.length recPtr) ->
      memcpy_out (data p') (HEAPPAGE_DATA_SIZE - (fillPtr p + length)) length
      = recPtr) /\
     AvailableSpace p' = AvailableSpace p - (length + sizeof_Slot)).
Proof.
  destruct (Z.lt_ge_cases (freeSpace p) length) as [Hlt | Hge].
  - rewrite InsertRecord_DONE by assumption.
    split; [split; [lia | reflexivity] |].
    split; [auto | intros H; contradiction].
  - rewrite InsertRecord_OK by assumption.
    split; [split; [discriminate | lia] |].
    split; [discriminate |].
    intros _. unfold AvailableSpace. simpl.
    repeat split.
    + unfold store. rewrite Z.eqb_refl. reflexivity.
    + intros ->. apply memcpy_out_in.
    + lia.
Qed.

(** C9. The space check of [InsertRecord] compares [length] with [freeSpace]
    alone: a record with [freeSpace - sizeof(Slot) < length <= freeSpace] is
    accepted, and [AvailableSpace] then returns the negative number
    [freeSpace - length - sizeof(Slot)]. *)
Theorem InsertRecord_negative_free_space p recPtr length rid :
  freeSpace p - sizeof_Slot < length <= freeSpace p ->
  let '(status, p', _) := InsertRecord p recPtr length rid in
  status = OK /\
  AvailableSpace p' = freeSpace p - length - sizeof_Slot /\
  AvailableSpace p' < 0.
Proof.
  intros [Hlo Hhi]. rewrite InsertRecord_OK by assumption.
  unfold AvailableSpace. simpl. repeat split; lia.
Qed.

(** C6. Insert/Get round trip: in every reachable state, when [InsertRecord]
    of a record answers [OK] and returns [rid], [GetRecord] on [rid] in the
    resulting state answers [OK] with the bytes of the record and its
    length. *)
Theorem InsertRecord_GetRecord p recPtr rid p' rid' buf len :
  reachable p ->
  InsertRecord p recPtr (Z.of_nat (List.length recPtr)) rid = (OK, p', rid') ->
  GetRecord p' rid' buf len =
  (OK, recPtr, Z.of_nat (List.length recPtr)).
Proof.
  intros Hr Hins.
  destruct (reachable_wf p Hr) as [Hacc Hn]. unfold accounting in Hacc.
  set (L := Z.of_nat (List.length recPtr)) in *.
  destruct (Z.lt_ge_cases (freeSpace p) L) as [Hlt | Hge].
  - rewrite InsertRecord_DONE in Hins by assumption. discriminate.
  - rewrite InsertRecord_OK in Hins by assumption.
    injection Hins as <- <-.
    unfold GetRecord. simpl. rewrite Z.eqb_refl. simpl.
    destruct (Z.geb_spec (numOfSlots p) (numOfSlots p + 1)); [lia |].
    unfold store. rewrite Z.eqb_refl. simpl.
    assert (Hoff : 0 <= HEAPPAGE_DATA_SIZE - (fillPtr p + L)) by nia.
    destruct (Z.eqb_spec (HEAPPAGE_DATA_SIZE - (fillPtr p + L)) (-1)); [lia |].
    simpl. unfold slot_length. simpl. subst L. rewrite memcpy_out_in.
    reflexivity.
Qed.

(** *** The shift loop of [DeleteRecord] *)

(** The loop adds [rlength] to the offset of every directory entry from [i]
    up to [n - 1], deleted or not. *)
Lemma shift_records_slots fuel : forall n rlength i sl d k,
  fuel = Z.to_nat (n - i) ->
  fst (shift_records fuel n rlength i sl d) k =
  if (i <=? k) && (k <? n)
  then mkSlot (offset (sl k) + rlength) (length (sl k))
  else sl k.
Proof.
  induction fuel as [| f IH]; intros n rlength i sl d k Hf; simpl.
  - destruct (Z.leb_spec i k); destruct (Z.ltb_spec k n);
      simpl; try reflexivity; lia.
  - destruct (Z.ltb_spec i n) as [Hin | Hin]; [| lia].
    rewrite IH by lia. unfold store.
    destruct (Z.eqb_spec k i) as [-> | Hki].
    + destruct (Z.leb_spec (i + 1) i); [lia |].
      destruct (Z.leb_spec i i); [| lia].
      destruct (Z.ltb_spec i n); [| lia]. reflexivity.
    + destruct (Z.leb_spec (i + 1) k); destruct (Z.leb_spec i k);
        destruct (Z.ltb_spec k n); simpl; try reflexivity; lia.
Qed.

Lemma DeleteRecord_OK p rid :
  pageNo rid = pid p -> offset (slots p (slotNo rid)) <> -1 ->
  fst (DeleteRecord p rid) = OK /\
  forall k,
    slots (snd (DeleteRecord p rid)) k =
    if (slotNo rid + 1 <=? k) && (k <? numOfSlots p)
    then mkSlot (offset (slots p k) + length (slots p (slotNo rid)))
                (length (slots p k))
    else if k =? slotNo rid then mkSlot (-1) (length (slots p (slotNo rid)))
    else slots p k.
Proof.
  intros Hpid Hlive. unfold DeleteRecord.
  rewrite Hpid, Z.eqb_refl. simpl.
  destruct (Z.eqb_spec (offset (slots p (slotNo rid))) (-1)); [contradiction |].
  pose proof (shift_records_slots
                (Z.to_nat (numOfSlots p - (slotNo rid + 1))) (numOfSlots p)
                (length (slots p (slotNo rid))) (slotNo rid + 1)
                (store (slots p) (slotNo rid)
                       (mkSlot (-1) (length (slots p (slotNo rid)))))
                (data p)) as Hshift.
  destruct (shift_records _ _ _ _ _ _) as [slots2 data2].
  simpl in *. split; [reflexivity |].
  intros k. rewrite Hshift by reflexivity. unfold store.
  destruct (Z.leb_spec (slotNo rid + 1) k); destruct (Z.ltb_spec k (numOfSlots p));
    simpl; try reflexivity.
  destruct (Z.eqb_spec k (slotNo rid)); [lia | reflexivity].
Qed.

(** C10. Deleted slots come back: when slot [j] of the directory is deleted
    and a slot [i < j] holds a record of length at least 1, [DeleteRecord] on
    slot [i] answers [OK] and leaves slot [j] with the offset
    [-1 + length(i)], which is not negative; [GetRecord] on [{pid, j}], which
    answered [FAIL] before, now answers [OK]. *)
Theorem DeleteRecord_resurrects p rid j buf len :
  pageNo rid = pid p ->
  slotNo rid < j < numOfSlots p ->
  offset (slots p (slotNo rid)) <> -1 ->
  1 <= length (slots p (slotNo rid)) ->
  offset (slots p j) = -1 ->
  fst (fst (GetRecord p (mkRecordID (pid p) j) buf len)) = FAIL /\
  fst (DeleteRecord p rid) = OK /\
  offset (slots (snd (DeleteRecord p rid)) j)
    = -1 + length (slots p (slotNo rid)) /\
  0 <= offset (slots (snd (DeleteRecord p rid)) j) /\
  fst (fst (GetRecord (snd (DeleteRecord p rid)) (mkRecordID (pid p) j)
                      buf len)) = OK.
Proof.
  intros Hpid Hj Hlive Hlen Hdel.
  destruct (DeleteRecord_OK p rid Hpid Hlive) as [Hok Hslots].
  destruct (DeleteRecord_header p rid) as [Hp [Hn _]]. cbv zeta in Hp, Hn.
  assert (Hoff : offset (slots (snd (DeleteRecord p rid)) j)
                 = -1 + length (slots p (slotNo rid))).
  { rewrite Hslots.
    destruct (Z.leb_spec (slotNo rid + 1) j); [| lia].
    destruct (Z.ltb_spec j (numOfSlots p)); [| lia].
    cbn [andb offset]. lia. }
  split; [| split; [exact Hok | split; [exact Hoff | split; [lia |]]]].
  - unfold GetRecord. simpl. rewrite Z.eqb_refl, Hdel. simpl.
    rewrite orb_true_r. reflexivity.
  - unfold GetRecord. cbn [pageNo slotNo].
    rewrite Hp, Z.eqb_refl, Hn, Hoff. cbn [negb].
    destruct (Z.geb_spec j (numOfSlots p)); [lia |].
    destruct (Z.eqb_spec (-1 + length (slots p (slotNo rid))) (-1)); [lia |].
    reflexivity.
Qed.

(** *** Scanning the directory *)

(** The scan yields the first slot at or after [next] that is not deleted,
    and none when there is none left. *)
Lemma find_valid_spec p : forall fuel next,
  fuel = Z.to_nat (numOfSlots p - next) ->
  match find_valid fuel p next with
  | Some k =>
      next <= k < numOfSlots p /\
      filter (slot_live p) (zseq next fuel) =
      k :: filter (slot_live p)
             (zseq (k + 1) (Z.to_nat (numOfSlots p - (k + 1))))
  | None => filter (slot_live p) (zseq next fuel) = []
  end.
Proof.
  induction fuel as [| f IH]; intros next Hf; simpl; [reflexivity |].
  destruct (Z.ltb_spec next (numOfSlots p)) as [Hlt | Hge]; [| lia].
  assert (Hf' : f = Z.to_nat (numOfSlots p - (next + 1))) by lia.
  change (negb (offset (slots p next) =? -1)) with (slot_live p next).
  destruct (slot_live p next) eqn:E.
  - split; [lia |]. rewrite <- Hf'. reflexivity.
  - specialize (IH (next + 1) Hf').
    destruct (find_valid f p (next + 1)) as [k |].
    + destruct IH as [Hk Hfilter]. split; [lia | exact Hfilter].
    + exact IH.
Qed.

Lemma next_records_spec p : forall fuel cur,
  pageNo cur = pid p ->
  (Z.to_nat (numOfSlots p - (slotNo cur + 1)) < fuel)%nat ->
  next_records fuel p cur =
  Some (map (mkRecordID (pid p))
          (filter (slot_live p)
             (zseq (slotNo cur + 1)
                   (Z.to_nat (numOfSlots p - (slotNo cur + 1)))))).
Proof.
  induction fuel as [| f IH]; intros cur Hpid Hfuel; [lia |].
  simpl. unfold NextRecord. rewrite Hpid, Z.eqb_refl. cbn [negb].
  pose proof (find_valid_spec p _ (slotNo cur + 1) eq_refl) as Hfind.
  destruct (find_valid _ p (slotNo cur + 1)) as [k |].
  - destruct Hfind as [Hk Hfilter].
    rewrite (IH (mkRecordID (pid p) k)); [| reflexivity | simpl; lia].
    simpl. rewrite Hfilter. reflexivity.
  - rewrite Hfind. reflexivity.
Qed.


(** *** Where the code departs from the specification *)

(** [DeleteRecord] does not compare [rid.slotNo] with [numOfSlots], which
    [GetRecord] does: on a directory entry at or beyond [numOfSlots] whose
    stale offset is not [-1], [GetRecord] answers [FAIL] and [DeleteRecord]
    answers [OK]. *)
Lemma DeleteRecord_no_range_check p rid buf len :
  pageNo rid = pid p ->
  numOfSlots p <= slotNo rid ->
  offset (slots p (slotNo rid)) <> -1 ->
  fst (fst (GetRecord p rid buf len)) = FAIL /\
  fst (DeleteRecord p rid) = OK /\
  freeSpace (snd (DeleteRecord p rid))
    = freeSpace p + length (slots p (slotNo rid)).
Proof.
  intros Hpid Hrange Hlive. split; [| split].
  - unfold GetRecord. rewrite Hpid, Z.eqb_refl. cbn [negb].
    destruct (Z.geb_spec (slotNo rid) (numOfSlots p)); [reflexivity | lia].
  - apply DeleteRecord_OK; assumption.
  - unfold DeleteRecord. rewrite Hpid, Z.eqb_refl. cbn [negb].
    destruct (Z.eqb_spec (offset (slots p (slotNo rid))) (-1));
      [contradiction |].
    destruct (shift_records _ _ _ _ _ _). reflexivity.
Qed.

(** When no slot between the cursors is deleted, the second loop of
    [CompactSlotDir] stops with [start = end]: the slot under the cursors is
    not counted. *)
Lemma compact_loop_all_live fuel : forall start end_ sl,
  fuel = Z.to_nat (end_ - start) -> start <= end_ ->
  (forall k, start <= k < end_ -> offset (sl k) <> -1) ->
  compact_loop fuel start end_ sl = (end_, sl).
Proof.
  induction fuel as [| f IH]; intros start end_ sl Hf Hle Hlive; simpl.
  - f_equal. lia.
  - destruct (Z.ltb_spec start end_); [| lia].
    destruct (Z.eqb_spec (offset (sl start)) (-1)) as [E | _].
    + exfalso. apply (Hlive start); [lia | exact E].
    + cbn [negb]. apply IH; [lia | lia |].
      intros k Hk. apply Hlive. lia.
Qed.

(** On a page whose [numOfSlots >= 1] slots are all live, [CompactSlotDir]
    leaves [numOfSlots - 1] slots. *)
Lemma CompactSlotDir_all_live fuel p :
  1 <= numOfSlots p ->
  (forall k, 0 <= k < numOfSlots p -> offset (slots p k) <> -1) ->
  exists p', CompactSlotDir (S fuel) p = Some p' /\
             numOfSlots p' = numOfSlots p - 1 /\ slots p' = slots p.
Proof.
  intros Hn Hlive. unfold CompactSlotDir. simpl.
  destruct (Z.eqb_spec (offset (slots p (numOfSlots p - 1))) (-1)) as [E | _].
  { exfalso. apply (Hlive (numOfSlots p - 1)); [lia | exact E]. }
  rewrite andb_false_r.
  rewrite compact_loop_all_live; [| reflexivity | lia |].
  - eexists. split; [reflexivity |]. simpl. split; reflexivity.
  - intros k Hk. apply Hlive. lia.
Qed.

End Properties.

(** ** The run of the specification's scenario *)

Lemma Run_compacted :
  CompactSlotDir (cfg := Run.config) 1 Run.first_deleted = Some Run.compacted.
Proof. vm_compute. reflexivity. Qed.

Lemma Run_first_deleted_reachable :
  reachable (cfg := Run.config) Run.first_deleted.
Proof.
  unfold Run.first_deleted, Run.two_records, Run.one_record, Run.insert,
    Run.empty_page.
  repeat constructor.
Qed.

Lemma Run_compacted_reachable : reachable (cfg := Run.config) Run.compacted.
Proof.
  apply (reach_CompactSlotDir Run.first_deleted 1%nat).
  - exact Run_first_deleted_reachable.
  - exact Run_compacted.
Qed.

(** C1. On a page initialised in a zeroed frame, insert "AAAA" (rid0), insert
    "BBBBBB" (rid1), delete rid0: the shift loop copies 4 bytes, the length of
    the deleted record, of the 6 bytes of the record it moves, and
    [GetRecord] on rid1, which returned "BBBBBB" before the deletion, returns
    "BBBBAA". *)
Theorem DeleteRecord_corrupts_longer_record :
  GetRecord Run.two_records Run.rid1 [] 0 = (OK, Run.BBBBBB, 6) /\
  fst (DeleteRecord Run.two_records Run.rid0) = OK /\
  GetRecord (snd (DeleteRecord Run.two_records Run.rid0)) Run.rid1 [] 0
  = (OK, Run.BBBBAA, 6).
Proof. vm_compute. repeat split. Qed.

(** C2. On a page that holds the single live record "AAAA", the cursors of
    [CompactSlotDir] start on the same slot, the loop is not entered and
    [numOfSlots] becomes 0: the page had one live record before the call, and
    after it no RecordID with a slot index from 0 on reaches any record. *)
Theorem CompactSlotDir_drops_last_live_slot :
  numOfSlots Run.one_record = 1 /\
  GetNumOfRecords Run.one_record = 1 /\
  GetRecord Run.one_record Run.rid0 [] 0 = (OK, Run.AAAA, 4) /\
  exists p',
    (forall fuel,
       CompactSlotDir (cfg := Run.config) (S fuel) Run.one_record = Some p') /\
    numOfSlots p' = 0 /\
    freeSpace p' = freeSpace Run.one_record + 8 /\
    forall rid buf len,
      0 <= slotNo rid -> fst (fst (GetRecord p' rid buf len)) = FAIL.
Proof.
  split; [reflexivity | split; [reflexivity | split; [reflexivity |]]].
  destruct (CompactSlotDir_all_live (cfg := Run.config) 0 Run.one_record)
    as [p' [Hc [Hn _]]].
  - vm_compute. discriminate.
  - intros k Hk. change (numOfSlots Run.one_record) with 1 in Hk.
    replace k with 0 by lia. vm_compute. discriminate.
  - exists p'.
    assert (Hall : forall fuel,
               CompactSlotDir (cfg := Run.config) (S fuel) Run.one_record
               = Some p').
    { intros fuel. rewrite <- Hc. reflexivity. }
    split; [exact Hall |].
    change (numOfSlots Run.one_record - 1) with 0 in Hn.
    split; [exact Hn |]. split.
    + destruct (CompactSlotDir_header 1%nat Run.one_record p' (Hall 0%nat))
        as [_ [_ [_ Hfree]]].
      rewrite Hfree, Hn. reflexivity.
    + intros rid buf len Hslot. unfold GetRecord.
      destruct (negb (pageNo rid =? pid p')); [reflexivity |].
      rewrite Hn. destruct (Z.geb_spec (slotNo rid) 0); [reflexivity | lia].
Qed.

(** C3. After insert "AAAA", insert "BBBBBB", delete rid0 and
    [CompactSlotDir], the page has one slot and entry 1 of the directory
    still holds the offset of the record that was moved to slot 0.
    [DeleteRecord] on [{pid, 1}], a slot out of range, answers [OK], gives 6
    bytes back to [freeSpace] and takes them off [fillPtr], which drops to 0
    while the record of slot 0 is live. *)
Theorem DeleteRecord_accepts_slot_out_of_range :
  reachable (cfg := Run.config) Run.compacted /\
  numOfSlots Run.compacted = 1 /\
  slotNo Run.rid1 = 1 /\
  pageNo Run.rid1 = pid Run.compacted /\
  fst (DeleteRecord Run.compacted Run.rid1) = OK /\
  freeSpace (snd (DeleteRecord Run.compacted Run.rid1))
    = freeSpace Run.compacted + 6 /\
  fillPtr (snd (DeleteRecord Run.compacted Run.rid1)) = 0 /\
  GetRecord (snd (DeleteRecord Run.compacted Run.rid1)) Run.rid0 [] 0
    = (OK, Run.BBBBAA, 6).
Proof.
  split; [exact Run_compacted_reachable |].
  vm_compute. repeat split.
Qed.

(** C8. In the same state, on the same RecordID [{pid, 1}], [GetRecord]
    answers [FAIL] (the slot index is not below [numOfSlots]) and
    [DeleteRecord] answers [OK]: the two validity checks differ. *)
Theorem GetRecord_DeleteRecord_checks_differ :
  reachable (cfg := Run.config) Run.compacted /\
  fst (fst (GetRecord Run.compacted Run.rid1 [] 0)) = FAIL /\
  fst (DeleteRecord Run.compacted Run.rid1) = OK.
Proof.
  split; [exact Run_compacted_reachable |].
  destruct (DeleteRecord_no_range_check Run.compacted Run.rid1 [] 0)
    as [Hget [Hdel _]].
  - reflexivity.
  - vm_compute. discriminate.
  - vm_compute. discriminate.
  - split; assumption.
Qed.

(** ** The theorems at work on the concrete page *)

Lemma free_space_accounting_witness :
  accounting (cfg := Run.config) Run.empty_page /\
  accounting (cfg := Run.config) Run.one_record /\
  accounting (cfg := Run.config) Run.first_deleted.
Proof.
  pose proof (free_space_accounting (cfg := Run.config)) as [Hinit [Hstep Hreach]].
  split; [apply Hinit | split].
  - apply (Hstep Run.empty_page (Hinit Run.zeroed 7)).
  - apply Hreach. unfold Run.first_deleted, Run.two_records, Run.one_record,
      Run.insert, Run.empty_page. repeat constructor.
Defined.

Lemma InsertRecord_contract_witness :
  let '(status, p', rid') :=
    InsertRecord (cfg := Run.config) Run.empty_page Run.AAAA 4 Run.no_rid in
  status = OK /\ rid' = Run.rid0 /\ offset (slots p' 0) = 996 /\
  memcpy_out (data p') 996 4 = Run.AAAA /\ AvailableSpace p' = 1000 - (4 + 8).
Proof.
  pose proof (InsertRecord_contract (cfg := Run.config)
                Run.empty_page Run.AAAA 4 Run.no_rid) as H.
  change (InsertRecord Run.empty_page Run.AAAA 4 Run.no_rid)
    with (OK, Run.one_record, Run.rid0) in H |- *.
  cbv beta iota in H |- *.
  destruct H as [_ [_ H]].
  destruct H as [Hs [Hr [_ [Hslot [Hbytes Hfree]]]]]; [discriminate |].
  split; [exact Hs | split; [exact Hr | split; [| split]]].
  - change (numOfSlots Run.empty_page) with 0 in Hslot.
    rewrite Hslot. reflexivity.
  - apply Hbytes. reflexivity.
  - exact Hfree.
Defined.

Lemma InsertRecord_GetRecord_witness :
  GetRecord Run.one_record Run.rid0 [] 0 = (OK, Run.AAAA, 4).
Proof.
  apply (InsertRecord_GetRecord (cfg := Run.config) eq_refl
           Run.empty_page Run.AAAA Run.no_rid Run.one_record Run.rid0 [] 0).
  - apply reach_Init.
  - reflexivity.
Defined.


Lemma InsertRecord_negative_free_space_witness :
  let '(status, p', _) :=
    InsertRecord (cfg := Run.config) Run.empty_page Run.long_record 996
                 Run.no_rid in
  status = OK /\ AvailableSpace p' = 1000 - 996 - 8 /\ AvailableSpace p' < 0.
Proof.
  apply (InsertRecord_negative_free_space (cfg := Run.config)
           Run.empty_page Run.long_record 996 Run.no_rid).
  simpl. lia.
Defined.

Lemma DeleteRecord_resurrects_witness :
  fst (fst (GetRecord Run.second_deleted Run.rid1 [] 0)) = FAIL /\
  fst (DeleteRecord Run.second_deleted Run.rid0) = OK /\
  offset (slots (snd (DeleteRecord Run.second_deleted Run.rid0)) 1) = -1 + 4 /\
  0 <= offset (slots (snd (DeleteRecord Run.second_deleted Run.rid0)) 1) /\
  fst (fst (GetRecord (snd (DeleteRecord Run.second_deleted Run.rid0))
                      Run.rid1 [] 0)) = OK.
Proof.
  apply (DeleteRecord_resurrects Run.second_deleted Run.rid0 1 [] 0).
  - reflexivity.
  - vm_compute. split; reflexivity.
  - vm_compute. discriminate.
  - vm_compute. discriminate.
  - reflexivity.
Defined.

(** ** Further properties of the member functions *)

Section Further.

Context {cfg : Config}.

(** *** Counting and emptiness *)

Lemma zseq_length : forall n start, List.length (zseq start n) = n.
Proof. induction n as [| n IH]; intros start; simpl; [| rewrite IH]; reflexivity. Qed.

Lemma zseq_In : forall n start k,
  In k (zseq start n) <-> start <= k < start + Z.of_nat n.
Proof.
  induction n as [| n IH]; intros start k; simpl.
  - lia.
  - rewrite IH. lia.
Qed.

Lemma zseq_app : forall n m start,
  zseq start (n + m) = zseq start n ++ zseq (start + Z.of_nat n) m.
Proof.
  induction n as [| n IH]; intros m start; simpl.
  - rewrite Z.add_0_r. reflexivity.
  - rewrite IH. do 3 f_equal. lia.
Qed.

(** The counting loop of [GetNumOfRecords] over a list of indices. *)
Lemma count_down_spec p : forall l toReturn,
  fold_left (fun toReturn i =>
               if offset (slots p i) =? -1 then toReturn - 1 else toReturn)
            l toReturn
  = toReturn - Z.of_nat (List.length l)
    + Z.of_nat (List.length (filter (slot_live p) l)).
Proof.
  induction l as [| i l IH]; intros toReturn; simpl; [lia |].
  rewrite IH. unfold slot_live at 2.
  destruct (offset (slots p i) =? -1); simpl; lia.
Qed.

Lemma forallb_deleted_filter p : forall l,
  forallb (fun i => offset (slots p i) =? -1) l = true <->
  filter (slot_live p) l = [].
Proof.
  induction l as [| i l IH]; simpl; [tauto |].
  unfold slot_live at 1.
  destruct (offset (slots p i) =? -1); simpl; [exact IH |].
  split; discriminate.
Qed.

Lemma IsEmpty_live_rids p : IsEmpty p = true <-> live_rids p = [].
Proof.
  unfold IsEmpty, live_rids.
  destruct (Z.eqb_spec (numOfSlots p) 0) as [-> | _]; [simpl; tauto |].
  rewrite forallb_deleted_filter.
  split; [intros ->; reflexivity |].
  intros H. apply map_eq_nil in H. exact H.
Qed.

Lemma FirstRecord_live_rids p rid :
  match live_rids p with
  | [] => FirstRecord p rid = (DONE, rid)
  | first :: _ => FirstRecord p rid = (OK, first)
  end.
Proof.
  unfold FirstRecord, live_rids.
  destruct (Z.eqb_spec (numOfSlots p) 0) as [-> | _]; [reflexivity |].
  rewrite Z.sub_0_r.
  pose proof (find_valid_spec p _ 0 (eq_sym (f_equal Z.to_nat
                (Z.sub_0_r (numOfSlots p))))) as Hfind.
  destruct (find_valid _ p 0) as [k |].
  - destruct Hfind as [_ ->]. reflexivity.
  - rewrite Hfind. reflexivity.
Qed.

Lemma all_records_live_rids p rid fuel :
  (Z.to_nat (numOfSlots p) <= fuel)%nat ->
  all_records fuel p rid = Some (live_rids p).
Proof.
  intros Hfuel. unfold all_records.
  pose proof (FirstRecord_live_rids p rid) as HF.
  unfold live_rids in *.
  destruct (Z.eqb_spec (numOfSlots p) 0) as [E | Hn0].
  { rewrite E in *. simpl in *. rewrite HF. reflexivity. }
  pose proof (find_valid_spec p _ 0 eq_refl) as Hfind.
  rewrite Z.sub_0_r in Hfind.
  destruct (find_valid (Z.to_nat (numOfSlots p)) p 0) as [k |].
  - destruct Hfind as [Hk Hfilter]. rewrite Hfilter in *. simpl in HF.
    rewrite HF. rewrite next_records_spec; [| reflexivity | simpl; lia].
    reflexivity.
  - rewrite Hfind in *. simpl in HF. rewrite HF. reflexivity.
Qed.

(** X1. [GetNumOfRecords] returns the number of RecordIDs that a scan of the
    page with [FirstRecord] and [NextRecord] enumerates, on a page whose
    slot count is not negative. *)
Theorem GetNumOfRecords_counts_scan p :
  0 <= numOfSlots p ->
  GetNumOfRecords p = Z.of_nat (List.length (live_rids p)) /\
  forall fuel rid, (Z.to_nat (numOfSlots p) <= fuel)%nat ->
    option_map (fun l => Z.of_nat (List.length l)) (all_records fuel p rid)
    = Some (GetNumOfRecords p).
Proof.
  intros Hn.
  assert (Hc : GetNumOfRecords p = Z.of_nat (List.length (live_rids p))).
  { unfold GetNumOfRecords, live_rids.
    rewrite count_down_spec, zseq_length, length_map. lia. }
  split; [exact Hc |].
  intros fuel rid Hfuel.
  rewrite (all_records_live_rids p rid fuel Hfuel). simpl.
  rewrite Hc. reflexivity.
Qed.

(** X2. [IsEmpty] answers true exactly when [GetNumOfRecords] returns 0, on
    a page whose slot count is not negative. *)
Theorem IsEmpty_iff_no_records p :
  0 <= numOfSlots p ->
  (IsEmpty p = true <-> GetNumOfRecords p = 0).
Proof.
  intros Hn. rewrite IsEmpty_live_rids.
  unfold GetNumOfRecords. rewrite count_down_spec, zseq_length.
  unfold live_rids.
  split.
  - intros H. apply map_eq_nil in H. rewrite H. simpl. lia.
  - intros H.
    destruct (filter (slot_live p) (zseq 0 (Z.to_nat (numOfSlots p))));
      [reflexivity | simpl in H; lia].
Qed.

(** *** Reading records *)

(** X3. [ReturnRecord] accepts exactly the RecordIDs that [GetRecord]
    accepts; when it does, the bytes that [GetRecord] copies out are those
    that lie in [data] from the address [ReturnRecord] hands out, over the
    length both report.  On [FAIL] neither assigns its output parameters. *)
Theorem ReturnRecord_GetRecord p rid buf len ptr :
  fst (fst (ReturnRecord p rid ptr len)) = fst (fst (GetRecord p rid buf len)) /\
  (fst (fst (ReturnRecord p rid ptr len)) <> OK ->
     ReturnRecord p rid ptr len = (FAIL, ptr, len) /\
     GetRecord p rid buf len = (FAIL, buf, len)) /\
  (fst (fst (ReturnRecord p rid ptr len)) = OK ->
     GetRecord p rid buf len =
     (OK,
      memcpy_out (data p) (snd (fst (ReturnRecord p rid ptr len)))
                 (snd (ReturnRecord p rid ptr len)),
      snd (ReturnRecord p rid ptr len))).
Proof.
  unfold ReturnRecord, GetRecord.
  destruct (negb (pageNo rid =? pid p)).
  - simpl. repeat split; congruence.
  - destruct ((slotNo rid >=? numOfSlots p)
              || (offset (slots p (slotNo rid)) =? -1)).
    + simpl. repeat split; congruence.
    + simpl. repeat split; congruence.
Qed.

(** The scan stops on the first slot from [next] on that is not deleted. *)
Lemma find_valid_first p : forall fuel next k,
  find_valid fuel p next = Some k ->
  next <= k < numOfSlots p /\ offset (slots p k) <> -1 /\
  forall j, next <= j < k -> offset (slots p j) = -1.
Proof.
  induction fuel as [| f IH]; intros next k H; simpl in H; [discriminate |].
  destruct (Z.ltb_spec next (numOfSlots p)) as [Hlt | _]; [| discriminate].
  destruct (Z.eqb_spec (offset (slots p next)) (-1)) as [E | E]; simpl in H.
  - destruct (IH (next + 1) k H) as [Hk [Hlive Hskip]].
    split; [lia | split; [exact Hlive |]].
    intros j Hj. destruct (Z.eq_dec j next) as [-> | Hne]; [exact E |].
    apply Hskip. lia.
  - injection H as <-. split; [lia | split; [exact E |]]. intros j Hj. lia.
Qed.

(** X4. Every RecordID that [FirstRecord] or [NextRecord] returns with [OK]
    carries the page's id and a slot index below [numOfSlots], and
    [GetRecord] accepts it; [NextRecord] moves to a larger slot index and
    every slot it passes over is deleted. *)
Theorem scan_results_are_valid p buf len :
  (forall rid first, FirstRecord p rid = (OK, first) ->
     pageNo first = pid p /\ 0 <= slotNo first < numOfSlots p /\
     fst (fst (GetRecord p first buf len)) = OK /\
     forall j, 0 <= j < slotNo first -> offset (slots p j) = -1) /\
  (forall curRid nextRid next, NextRecord p curRid nextRid = (OK, next) ->
     pageNo next = pid p /\ slotNo curRid < slotNo next < numOfSlots p /\
     fst (fst (GetRecord p next buf len)) = OK /\
     forall j, slotNo curRid < j < slotNo next -> offset (slots p j) = -1).
Proof.
  assert (Hget : forall k, k < numOfSlots p -> offset (slots p k) <> -1 ->
            fst (fst (GetRecord p (mkRecordID (pid p) k) buf len)) = OK).
  { intros k Hk Hlive. unfold GetRecord. cbn [pageNo slotNo].
    rewrite Z.eqb_refl. cbn [negb].
    destruct (Z.geb_spec k (numOfSlots p)); [lia |].
    destruct (Z.eqb_spec (offset (slots p k)) (-1)); [contradiction |].
    reflexivity. }
  split.
  - intros rid first H. unfold FirstRecord in H.
    destruct (numOfSlots p =? 0); [discriminate |].
    destruct (find_valid _ p 0) as [k |] eqn:E; [| discriminate].
    injection H as <-.
    destruct (find_valid_first p _ 0 k E) as [Hk [Hlive Hskip]].
    cbn [pageNo slotNo]. repeat split; try lia; auto.
    apply Hget; [lia | assumption].
  - intros curRid nextRid next H. unfold NextRecord in H.
    destruct (negb (pageNo curRid =? pid p)); [discriminate |].
    destruct (find_valid _ p (slotNo curRid + 1)) as [k |] eqn:E;
      [| discriminate].
    injection H as <-.
    destruct (find_valid_first p _ _ k E) as [Hk [Hlive Hskip]].
    cbn [pageNo slotNo]. repeat split; try lia.
    + apply Hget; [lia | assumption].
    + intros j Hj. apply Hskip. lia.
Qed.

(** *** Deleting records *)

Lemma DeleteRecord_OK_inv p rid :
  fst (DeleteRecord p rid) = OK ->
  pageNo rid = pid p /\ offset (slots p (slotNo rid)) <> -1.
Proof.
  unfold DeleteRecord.
  destruct (Z.eqb_spec (pageNo rid) (pid p)); [| discriminate].
  destruct (Z.eqb_spec (offset (slots p (slotNo rid))) (-1)); [discriminate |].
  auto.
Qed.

Lemma DeleteRecord_freeSpace p rid :
  pageNo rid = pid p -> offset (slots p (slotNo rid)) <> -1 ->
  freeSpace (snd (DeleteRecord p rid))
  = freeSpace p + length (slots p (slotNo rid)) /\
  fillPtr (snd (DeleteRecord p rid))
  = fillPtr p - length (slots p (slotNo rid)).
Proof.
  intros Hpid Hlive. unfold DeleteRecord.
  rewrite Hpid, Z.eqb_refl. cbn [negb].
  destruct (Z.eqb_spec (offset (slots p (slotNo rid))) (-1)); [contradiction |].
  destruct (shift_records _ _ _ _ _ _). split; reflexivity.
Qed.

(** X5. After [DeleteRecord] has answered [OK] for [rid], [GetRecord] and
    [DeleteRecord] on the same [rid] both answer [FAIL] and the second
    deletion changes nothing; the first one gave the record's length, and
    no slot space, back to [AvailableSpace] and kept [numOfSlots]. *)
Theorem DeleteRecord_then_not_found p rid buf len :
  fst (DeleteRecord p rid) = OK ->
  let p' := snd (DeleteRecord p rid) in
  GetRecord p' rid buf len = (FAIL, buf, len) /\
  DeleteRecord p' rid = (FAIL, p') /\
  AvailableSpace p' = AvailableSpace p + length (slots p (slotNo rid)) /\
  numOfSlots p' = numOfSlots p.
Proof.
  intros Hok. destruct (DeleteRecord_OK_inv p rid Hok) as [Hpid Hlive].
  destruct (DeleteRecord_OK p rid Hpid Hlive) as [_ Hslots].
  destruct (DeleteRecord_header p rid) as [Hp [Hn _]].
  pose proof (DeleteRecord_freeSpace p rid Hpid Hlive) as Hfree.
  cbv zeta in *.
  assert (Hoff : offset (slots (snd (DeleteRecord p rid)) (slotNo rid)) = -1).
  { rewrite Hslots.
    destruct (Z.leb_spec (slotNo rid + 1) (slotNo rid)); [lia |].
    cbn [andb]. rewrite Z.eqb_refl. reflexivity. }
  repeat split.
  - unfold GetRecord. rewrite Hp, Hpid, Z.eqb_refl, Hoff. cbn [negb].
    rewrite orb_true_r. reflexivity.
  - unfold DeleteRecord at 1. rewrite Hp, Hpid, Z.eqb_refl, Hoff.
    reflexivity.
  - exact (proj1 Hfree).
  - exact Hn.
Qed.

(** X6. Deleting the record of the last slot of the directory moves
    nothing: the data bytes and every other directory entry stay as they
    were, so [GetRecord] answers on every other RecordID as before. *)
Theorem DeleteRecord_last_slot p rid :
  fst (DeleteRecord p rid) = OK ->
  numOfSlots p <= slotNo rid + 1 ->
  let p' := snd (DeleteRecord p rid) in
  data p' = data p /\
  (forall k, k <> slotNo rid -> slots p' k = slots p k) /\
  (forall rid' buf len, slotNo rid' <> slotNo rid ->
     GetRecord p' rid' buf len = GetRecord p rid' buf len).
Proof.
  intros Hok Hlast.
  destruct (DeleteRecord_OK_inv p rid Hok) as [Hpid Hlive].
  destruct (DeleteRecord_OK p rid Hpid Hlive) as [_ Hslots].
  destruct (DeleteRecord_header p rid) as [Hp [Hn _]]. cbv zeta in *.
  assert (Hdata : data (snd (DeleteRecord p rid)) = data p).
  { unfold DeleteRecord. rewrite Hpid, Z.eqb_refl. cbn [negb].
    destruct (Z.eqb_spec (offset (slots p (slotNo rid))) (-1));
      [contradiction |].
    replace (Z.to_nat (numOfSlots p - (slotNo rid + 1))) with O by lia.
    reflexivity. }
  assert (Hother : forall k, k <> slotNo rid ->
            slots (snd (DeleteRecord p rid)) k = slots p k).
  { intros k Hk. rewrite Hslots.
    destruct (Z.leb_spec (slotNo rid + 1) k);
      destruct (Z.ltb_spec k (numOfSlots p)); cbn [andb]; try lia;
      destruct (Z.eqb_spec k (slotNo rid)); try contradiction; reflexivity. }
  split; [exact Hdata | split; [exact Hother |]].
  intros rid' buf len Hne. unfold GetRecord.
  rewrite Hp, Hn, Hdata, (Hother _ Hne). reflexivity.
Qed.

(** *** The bytes moved by [DeleteRecord] *)

(** The shift loop writes only into the [rlength] bytes that follow each
    block [offset, offset + rlength) it copies. *)
Lemma shift_records_frame : forall fuel n rlength i sl d a,
  (forall k, i <= k < n ->
     ~ (offset (sl k) + rlength <= a < offset (sl k) + 2 * rlength)) ->
  snd (shift_records fuel n rlength i sl d) a = d a.
Proof.
  induction fuel as [| f IH]; intros n rlength i sl d a Hout; simpl;
    [reflexivity |].
  destruct (Z.ltb_spec i n) as [Hin | _]; [| reflexivity].
  rewrite IH.
  - unfold memcpy_within.
    destruct (Z.leb_spec (offset (sl i) + rlength) a);
      destruct (Z.ltb_spec a (offset (sl i) + rlength + rlength));
      cbn [andb]; try reflexivity.
    exfalso. apply (Hout i); lia.
  - intros k Hk. unfold store.
    destruct (Z.eqb_spec k i); [lia |]. apply Hout. lia.
Qed.

(** When the blocks of the later slots lie below one another, [rlength]
    bytes apart or more, the loop moves the first [rlength] bytes of each of
    them up by [rlength]. *)
Lemma shift_records_moved : forall fuel n rlength i sl d,
  fuel = Z.to_nat (n - i) ->
  (forall k k', i <= k < k' /\ k' < n ->
     offset (sl k') + rlength <= offset (sl k)) ->
  forall k t, i <= k < n -> 0 <= t < rlength ->
  snd (shift_records fuel n rlength i sl d) (offset (sl k) + rlength + t)
  = d (offset (sl k) + t).
Proof.
  induction fuel as [| f IH]; intros n rlength i sl d Hf Hlay k t Hk Ht;
    [lia |].
  simpl. destruct (Z.ltb_spec i n) as [Hin | Hin]; [| lia].
  set (sl1 := store sl i (mkSlot (offset (sl i) + rlength) (length (sl i)))).
  set (d1 := memcpy_within d (offset (sl i) + rlength) (offset (sl i)) rlength).
  assert (Hsl1 : forall j, i + 1 <= j -> sl1 j = sl j).
  { intros j Hj. unfold sl1, store. destruct (Z.eqb_spec j i); [lia |].
    reflexivity. }
  destruct (Z.eq_dec k i) as [-> | Hne].
  - rewrite shift_records_frame.
    + unfold d1, memcpy_within.
      destruct (Z.leb_spec (offset (sl i) + rlength)
                           (offset (sl i) + rlength + t)); [| lia].
      destruct (Z.ltb_spec (offset (sl i) + rlength + t)
                           (offset (sl i) + rlength + rlength)); [| lia].
      cbn [andb]. f_equal. lia.
    + intros j Hj. rewrite Hsl1 by lia.
      pose proof (Hlay i j ltac:(lia)). lia.
  - rewrite <- (Hsl1 k) by lia.
    rewrite IH; try lia.
    + rewrite Hsl1 by lia. unfold d1, memcpy_within.
      pose proof (Hlay i k ltac:(lia)).
      destruct (Z.leb_spec (offset (sl i) + rlength) (offset (sl k) + t));
        [lia |]. reflexivity.
    + intros j j' Hj. rewrite !Hsl1 by lia. apply Hlay. lia.
Qed.

Lemma memcpy_out_ext d d' src src' n :
  (forall t, 0 <= t < n -> d' (src' + t) = d (src + t)) ->
  memcpy_out d' src' n = memcpy_out d src n.
Proof.
  intros H. unfold memcpy_out. apply map_ext_in.
  intros k Hk. apply in_seq in Hk. apply H. lia.
Qed.

Lemma DeleteRecord_data p rid :
  pageNo rid = pid p -> offset (slots p (slotNo rid)) <> -1 ->
  data (snd (DeleteRecord p rid)) =
  snd (shift_records (Z.to_nat (numOfSlots p - (slotNo rid + 1)))
         (numOfSlots p) (length (slots p (slotNo rid))) (slotNo rid + 1)
         (store (slots p) (slotNo rid)
                (mkSlot (-1) (length (slots p (slotNo rid)))))
         (data p)).
Proof.
  intros Hpid Hlive. unfold DeleteRecord.
  rewrite Hpid, Z.eqb_refl. cbn [negb].
  destruct (Z.eqb_spec (offset (slots p (slotNo rid))) (-1)); [contradiction |].
  destruct (shift_records _ _ _ _ _ _). reflexivity.
Qed.

(** X7. Index stability for records of one length.  Let [DeleteRecord]
    answer [OK] on a record of length [r >= 0], and let the blocks of the
    later slots lie below one another, [r] bytes apart or more.  Then
    [GetRecord] answers as before the deletion on every later slot that
    holds a record of at most [r] bytes at an offset that is not negative,
    and on every earlier slot whose block lies [2 r] bytes or more above the
    blocks of all later slots. *)
Theorem DeleteRecord_fixed_length_stable p rid :
  fst (DeleteRecord p rid) = OK ->
  0 <= length (slots p (slotNo rid)) ->
  (forall k k', slotNo rid < k < k' /\ k' < numOfSlots p ->
     offset (slots p k') + length (slots p (slotNo rid))
     <= offset (slots p k)) ->
  (forall rid' buf len,
     slotNo rid < slotNo rid' < numOfSlots p ->
     0 <= offset (slots p (slotNo rid')) ->
     length (slots p (slotNo rid')) <= length (slots p (slotNo rid)) ->
     GetRecord (snd (DeleteRecord p rid)) rid' buf len
     = GetRecord p rid' buf len) /\
  (forall rid' buf len,
     slotNo rid' < slotNo rid ->
     (forall k', slotNo rid < k' < numOfSlots p ->
        offset (slots p k') + 2 * length (slots p (slotNo rid))
        <= offset (slots p (slotNo rid'))) ->
     GetRecord (snd (DeleteRecord p rid)) rid' buf len
     = GetRecord p rid' buf len).
Proof.
  intros Hok Hr Hlay.
  destruct (DeleteRecord_OK_inv p rid Hok) as [Hpid Hlive].
  destruct (DeleteRecord_OK p rid Hpid Hlive) as [_ Hslots].
  destruct (DeleteRecord_header p rid) as [Hp [Hn _]]. cbv zeta in Hp, Hn.
  pose proof (DeleteRecord_data p rid Hpid Hlive) as Hdata.
  set (r := length (slots p (slotNo rid))) in *.
  set (sl1 := store (slots p) (slotNo rid) (mkSlot (-1) r)) in *.
  assert (Hsl1 : forall j, slotNo rid + 1 <= j -> sl1 j = slots p j).
  { intros j Hj. unfold sl1, store.
    destruct (Z.eqb_spec j (slotNo rid)); [lia | reflexivity]. }
  split.
  - intros rid' buf len Hk Hoff Hlen.
    unfold GetRecord. rewrite Hp, Hn, Hslots.
    destruct (Z.leb_spec (slotNo rid + 1) (slotNo rid')); [| lia].
    destruct (Z.ltb_spec (slotNo rid') (numOfSlots p)); [| lia].
    cbn [andb offset]. unfold slot_length. cbn [length].
    destruct (negb (pageNo rid' =? pid p)); [reflexivity |].
    destruct (Z.geb_spec (slotNo rid') (numOfSlots p)); [lia |].
    destruct (Z.eqb_spec (offset (slots p (slotNo rid')) + r) (-1)); [lia |].
    destruct (Z.eqb_spec (offset (slots p (slotNo rid'))) (-1)); [lia |].
    cbn [orb]. f_equal. f_equal.
    apply memcpy_out_ext. intros t Ht. rewrite Hdata.
    rewrite <- (Hsl1 (slotNo rid')) by lia.
    apply shift_records_moved; try lia.
    intros k k' Hkk. rewrite !Hsl1 by lia. apply Hlay. lia.
  - intros rid' buf len Hk Habove.
    unfold GetRecord. rewrite Hp, Hn, Hslots.
    destruct (Z.leb_spec (slotNo rid + 1) (slotNo rid')); [lia |].
    cbn [andb]. destruct (Z.eqb_spec (slotNo rid') (slotNo rid)); [lia |].
    destruct (negb (pageNo rid' =? pid p)); [reflexivity |].
    destruct ((slotNo rid' >=? numOfSlots p)
              || (offset (slots p (slotNo rid')) =? -1)); [reflexivity |].
    f_equal. f_equal.
    apply memcpy_out_ext. intros t Ht. rewrite Hdata.
    apply shift_records_frame.
    intros k Hkr. rewrite Hsl1 by lia.
    pose proof (Habove k ltac:(lia)) as Hab. fold r in Hab. lia.
Qed.

(** *** Inserting records *)

Lemma InsertRecord_OK_inv p recPtr length rid p' rid' :
  InsertRecord p recPtr length rid = (OK, p', rid') ->
  length <= freeSpace p /\
  rid' = mkRecordID (pid p) (numOfSlots p) /\
  p' = mkHeapPage (pid p) (nextPage p) (prevPage p) (numOfSlots p + 1)
         (fillPtr p + length) (freeSpace p - length - sizeof_Slot) (type p)
         (store (slots p) (numOfSlots p)
            (mkSlot (HEAPPAGE_DATA_SIZE - (fillPtr p + length)) length))
         (memcpy_in (data p) (HEAPPAGE_DATA_SIZE - (fillPtr p + length))
            recPtr length).
Proof.
  intros H.
  destruct (Z.lt_ge_cases (freeSpace p) length) as [Hlt | Hge].
  - rewrite InsertRecord_DONE in H by assumption. discriminate.
  - rewrite InsertRecord_OK in H by assumption.
    injection H as <- <-. auto.
Qed.

(** *** Compacting the directory *)

Lemma Slot_eta (s : Slot) : mkSlot (offset s) (length s) = s.
Proof. destruct s. reflexivity. Qed.

(** Invariant of the second loop of [CompactSlotDir]: below [start] every
    entry is a live entry of the directory [sl0] the loop started from, and
    from [start] on the directory is as it was. *)
Lemma compact_loop_directory sl0 E : forall fuel start end_ sl,
  0 <= start -> end_ <= E ->
  (forall k, 0 <= k < start ->
     exists j, 0 <= j <= E /\ offset (sl0 j) <> -1 /\ sl k = sl0 j) ->
  (forall k, start <= k -> sl k = sl0 k) ->
  let '(start', sl') := compact_loop fuel start end_ sl in
  start <= start' <= Z.max start (end_ + 1) /\
  forall k, 0 <= k < start' ->
    exists j, 0 <= j <= E /\ offset (sl0 j) <> -1 /\ sl' k = sl0 j.
Proof.
  induction fuel as [| f IH]; intros start end_ sl Hs He Hlow Hhigh; simpl.
  - split; [lia | exact Hlow].
  - destruct (Z.ltb_spec start end_) as [Hlt | Hge];
      [| split; [lia | exact Hlow]].
    destruct (Z.eqb_spec (offset (sl start)) (-1)) as [Edel | Elive];
      cbn [negb].
    + destruct (Z.eqb_spec (offset (sl end_)) (-1)) as [Eend | Eend].
      * specialize (IH start (end_ - 1) sl Hs ltac:(lia) Hlow Hhigh).
        destruct (compact_loop f start (end_ - 1) sl) as [start' sl'].
        destruct IH as [Hb Hd]. split; [lia | exact Hd].
      * set (sl1 := store sl start
                      (mkSlot (offset (sl end_)) (length (sl end_)))).
        assert (IH' := IH (start + 1) (end_ - 1) sl1).
        destruct (compact_loop f (start + 1) (end_ - 1) sl1) as [start' sl'].
        destruct IH' as [Hb Hd]; try lia.
        -- intros k Hk. unfold sl1, store.
           destruct (Z.eqb_spec k start) as [-> | Hne].
           ++ exists end_. rewrite Slot_eta, <- (Hhigh end_) by lia.
              repeat split; lia.
           ++ apply Hlow. lia.
        -- intros k Hk. unfold sl1, store.
           destruct (Z.eqb_spec k start); [lia |]. apply Hhigh. lia.
        -- split; [lia | exact Hd].
    + assert (IH' := IH (start + 1) end_ sl).
      destruct (compact_loop f (start + 1) end_ sl) as [start' sl'].
      destruct IH' as [Hb Hd]; try lia.
      * intros k Hk. destruct (Z.eq_dec k start) as [-> | Hne].
        -- exists start. rewrite <- (Hhigh start) by lia.
           repeat split; lia.
        -- apply Hlow. lia.
      * intros k Hk. apply Hhigh. lia.
      * split; [lia | exact Hd].
Qed.

(** The descent of the first loop passes over deleted entries only. *)
Lemma skip_deleted_spec p : forall fuel end_ e,
  skip_deleted fuel p end_ = Some e ->
  e <= end_ /\ forall k, e < k <= end_ -> offset (slots p k) = -1.
Proof.
  induction fuel as [| f IH]; intros end_ e H; simpl in H; [discriminate |].
  destruct ((end_ <? numOfSlots p) && (offset (slots p end_) =? -1)) eqn:C.
  - apply andb_true_iff in C. destruct C as [_ C]. apply Z.eqb_eq in C.
    destruct (IH _ _ H) as [He Hdel]. split; [lia |].
    intros k Hk. destruct (Z.eq_dec k end_) as [-> | Hne]; [exact C |].
    apply Hdel. lia.
  - injection H as <-. split; [lia |]. intros k Hk. lia.
Qed.

Lemma CompactSlotDir_unfold fuel p p' :
  CompactSlotDir fuel p = Some p' ->
  exists end_,
    skip_deleted fuel p (numOfSlots p - 1) = Some end_ /\
    numOfSlots p' = fst (compact_loop (Z.to_nat (end_ - 0)) 0 end_ (slots p)) /\
    slots p' = snd (compact_loop (Z.to_nat (end_ - 0)) 0 end_ (slots p)) /\
    data p' = data p /\ fillPtr p' = fillPtr p /\ pid p' = pid p /\
    nextPage p' = nextPage p /\ prevPage p' = prevPage p /\ type p' = type p.
Proof.
  unfold CompactSlotDir.
  destruct (skip_deleted fuel p (numOfSlots p - 1)) as [end_ |];
    [| discriminate].
  intros H. exists end_.
  destruct (compact_loop _ _ _ _) as [start slots1].
  injection H as <-. simpl. repeat split.
Qed.

(** X8. [CompactSlotDir] leaves a directory without deleted slots: every
    slot below the new [numOfSlots] is a slot of the old directory that was
    not deleted, [GetRecord] accepts it, and the new slot count is not above
    the old one.  The data bytes, the fill pointer, the page id and the
    links are not touched. *)
Theorem CompactSlotDir_directory fuel p p' :
  CompactSlotDir fuel p = Some p' ->
  0 <= numOfSlots p' <= Z.max 0 (numOfSlots p) /\
  (forall k, 0 <= k < numOfSlots p' ->
     offset (slots p' k) <> -1 /\
     (exists j, 0 <= j < numOfSlots p /\ offset (slots p j) <> -1 /\
                slots p' k = slots p j) /\
     forall buf len,
       fst (fst (GetRecord p' (mkRecordID (pid p') k) buf len)) = OK) /\
  data p' = data p /\ fillPtr p' = fillPtr p /\ pid p' = pid p /\
  nextPage p' = nextPage p /\ prevPage p' = prevPage p.
Proof.
  intros H.
  destruct (CompactSlotDir_unfold fuel p p' H)
    as [end_ [Hskip [Hn [Hsl [Hd [Hf [Hp [Hnx [Hpv _]]]]]]]]].
  destruct (skip_deleted_spec p _ _ _ Hskip) as [He _].
  pose proof (compact_loop_directory (slots p) end_
                (Z.to_nat (end_ - 0)) 0 end_ (slots p)
                ltac:(lia) ltac:(lia) ltac:(intros k Hk; lia)
                ltac:(reflexivity)) as Hdir.
  destruct (compact_loop _ _ _ _) as [start slots1].
  simpl in Hn, Hsl. subst start slots1.
  destruct Hdir as [Hb Hlive].
  split; [lia |]. split; [| tauto].
  intros k Hk. destruct (Hlive k Hk) as [j [Hj [Hjl Hkj]]].
  assert (offset (slots p' k) <> -1) by (rewrite Hkj; exact Hjl).
  split; [assumption |]. split.
  - exists j. repeat split; try lia; assumption.
  - intros buf len. unfold GetRecord. cbn [pageNo slotNo].
    rewrite Z.eqb_refl. cbn [negb].
    destruct (Z.geb_spec k (numOfSlots p')); [lia |].
    destruct (Z.eqb_spec (offset (slots p' k)) (-1)); [contradiction |].
    reflexivity.
Qed.

(** The live entries of a range, counted from either end. *)
Lemma live_between_empty sl a b : b < a -> live_between sl a b = 0.
Proof.
  intros H. unfold live_between.
  replace (Z.to_nat (b + 1 - a)) with O by lia. reflexivity.
Qed.

Lemma live_between_first sl a b :
  a <= b ->
  live_between sl a b
  = (if offset (sl a) =? -1 then 0 else 1) + live_between sl (a + 1) b.
Proof.
  intros H. unfold live_between.
  replace (Z.to_nat (b + 1 - a)) with (S (Z.to_nat (b + 1 - (a + 1)))) by lia.
  cbn [zseq filter].
  destruct (offset (sl a) =? -1); cbn [negb List.length]; lia.
Qed.

Lemma live_between_last sl a b :
  a <= b ->
  live_between sl a b
  = live_between sl a (b - 1) + (if offset (sl b) =? -1 then 0 else 1).
Proof.
  intros H. unfold live_between.
  replace (Z.to_nat (b + 1 - a))
    with (Z.to_nat (b - 1 + 1 - a) + 1)%nat by lia.
  rewrite zseq_app, filter_app, length_app. cbn [zseq filter].
  replace (a + Z.of_nat (Z.to_nat (b - 1 + 1 - a))) with b by lia.
  destruct (offset (sl b) =? -1); cbn [negb List.length]; lia.
Qed.

Lemma live_between_ext sl sl' a b :
  (forall k, a <= k <= b -> sl' k = sl k) ->
  live_between sl' a b = live_between sl a b.
Proof.
  intros H. unfold live_between. do 2 f_equal.
  apply filter_ext_in. intros k Hk. apply zseq_In in Hk.
  rewrite H by lia. reflexivity.
Qed.

Lemma live_between_deleted_tail sl a : forall n e b,
  n = Z.to_nat (b - e) -> e <= b ->
  (forall k, e < k <= b -> offset (sl k) = -1) ->
  live_between sl a b = live_between sl a (Z.max e (a - 1)).
Proof.
  induction n as [| n IH]; intros e b Hn He Hdel.
  - assert (b = e) by lia. subst b.
    destruct (Z.le_gt_cases a e).
    + f_equal. lia.
    + rewrite !live_between_empty by lia. reflexivity.
  - destruct (Z.le_gt_cases a b) as [Hab | Hab].
    + rewrite live_between_last by assumption.
      rewrite (Hdel b) by lia. simpl. rewrite Z.add_0_r.
      apply IH; [lia | lia |]. intros k Hk. apply Hdel. lia.
    + rewrite !live_between_empty by lia. reflexivity.
Qed.

(** The second loop of [CompactSlotDir] ends with [start] advanced by the
    number of live entries between the cursors, or by one less. *)
Lemma compact_loop_count : forall fuel start end_ sl,
  (Z.to_nat (end_ - start) <= fuel)%nat ->
  start + live_between sl start end_ - 1
  <= fst (compact_loop fuel start end_ sl)
  <= start + live_between sl start end_.
Proof.
  induction fuel as [| f IH]; intros start end_ sl Hf; simpl.
  - destruct (Z.eq_dec start end_) as [-> | Hne].
    + rewrite live_between_first, live_between_empty by lia.
      destruct (offset (sl end_) =? -1); lia.
    + rewrite live_between_empty by lia. lia.
  - destruct (Z.ltb_spec start end_) as [Hlt | Hge].
    + rewrite (live_between_first sl start end_) by lia.
      destruct (Z.eqb_spec (offset (sl start)) (-1)) as [Edel | Elive];
        cbn [negb].
      * rewrite (live_between_last sl (start + 1) end_) by lia.
        destruct (Z.eqb_spec (offset (sl end_)) (-1)) as [Eend | Eend].
        -- specialize (IH start (end_ - 1) sl ltac:(lia)).
           destruct (Z.eq_dec start (end_ - 1)) as [E1 | E1].
           ++ rewrite <- E1 in *.
              rewrite live_between_empty by lia.
              rewrite live_between_first, live_between_empty in IH by lia.
              rewrite Edel in IH. simpl in IH. lia.
           ++ rewrite live_between_first in IH by lia.
              rewrite Edel in IH. simpl in IH. lia.
        -- specialize (IH (start + 1) (end_ - 1)
                         (store sl start
                            (mkSlot (offset (sl end_)) (length (sl end_))))
                         ltac:(lia)).
           rewrite (live_between_ext sl) in IH.
           ++ lia.
           ++ intros k Hk. unfold store.
              destruct (Z.eqb_spec k start); [lia | reflexivity].
      * specialize (IH (start + 1) end_ sl ltac:(lia)). lia.
    + cbn [fst]. destruct (Z.eq_dec start end_) as [-> | Hne].
      * rewrite live_between_first, live_between_empty by lia.
        destruct (offset (sl end_) =? -1); lia.
      * rewrite live_between_empty by lia. lia.
Qed.

Lemma GetNumOfRecords_live_between p :
  0 <= numOfSlots p ->
  GetNumOfRecords p = live_between (slots p) 0 (numOfSlots p - 1).
Proof.
  intros Hn. unfold GetNumOfRecords, live_between.
  rewrite count_down_spec, zseq_length.
  replace (Z.to_nat (numOfSlots p - 1 + 1 - 0))
    with (Z.to_nat (numOfSlots p)) by lia.
  change (filter (slot_live p)) with
    (filter (fun i => negb (offset (slots p i) =? -1))). lia.
Qed.

(** X9. [CompactSlotDir] keeps all the records of the page or all but
    one: on a page whose slot count is not negative, the new [numOfSlots]
    is the number of records [GetNumOfRecords] counted before the call, or
    one less, and it is the number of records counted after the call. *)
Theorem CompactSlotDir_record_count fuel p p' :
  0 <= numOfSlots p ->
  CompactSlotDir fuel p = Some p' ->
  GetNumOfRecords p - 1 <= numOfSlots p' <= GetNumOfRecords p /\
  GetNumOfRecords p' = numOfSlots p'.
Proof.
  intros Hn H.
  destruct (CompactSlotDir_unfold fuel p p' H)
    as [end_ [Hskip [Hn' [Hsl _]]]].
  destruct (skip_deleted_spec p _ _ _ Hskip) as [He Hdel].
  pose proof (compact_loop_count (Z.to_nat (end_ - 0)) 0 end_ (slots p)
                ltac:(lia)) as Hc.
  rewrite <- Hn' in Hc.
  pose proof (live_between_deleted_tail (slots p) 0
                (Z.to_nat (numOfSlots p - 1 - end_)) end_ (numOfSlots p - 1)
                eq_refl He Hdel) as Htail.
  assert (Hcut : live_between (slots p) 0 (Z.max end_ (0 - 1))
                 = live_between (slots p) 0 end_).
  { destruct (Z.le_gt_cases (-1) end_); [f_equal; lia |].
    rewrite !live_between_empty by lia. reflexivity. }
  split.
  - rewrite GetNumOfRecords_live_between by assumption. lia.
  - pose proof (compact_loop_directory (slots p) end_
                  (Z.to_nat (end_ - 0)) 0 end_ (slots p)
                  ltac:(lia) ltac:(lia) ltac:(intros k Hk; lia)
                  ltac:(reflexivity)) as Hdir.
    destruct (compact_loop _ _ _ _) as [start slots1].
    simpl in Hn', Hsl. subst start slots1. destruct Hdir as [Hb Hlive].
    unfold GetNumOfRecords. rewrite count_down_spec, zseq_length.
    rewrite forallb_filter_id; [rewrite zseq_length; lia |].
    apply forallb_forall. intros k Hk. apply zseq_In in Hk.
    destruct (Hlive k ltac:(lia)) as [j [_ [Hjl Hkj]]].
    unfold slot_live. rewrite Hkj.
    destruct (Z.eqb_spec (offset (slots p j)) (-1)); [contradiction |].
    reflexivity.
Qed.

(** *** Pages that only grow *)

(** X10. Pages that only grow.  After [Init] every record of the directory
    lies at or above the fill line, and a successful [InsertRecord] of
    [len >= 0] bytes keeps it so; on such a page the insertion leaves the
    answer of [GetRecord] unchanged for every slot index from 0 on other
    than the new slot.  Hence every record inserted since [Init], with no
    deletion in between, is read back as it was written. *)
Theorem InsertRecord_above_fill_line :
  (forall raw pn, above_fill_line (Init raw pn)) /\
  (forall p recPtr len rid p' rid',
     above_fill_line p -> 0 <= len ->
     InsertRecord p recPtr len rid = (OK, p', rid') ->
     above_fill_line p' /\
     forall rid0 buf l,
       0 <= slotNo rid0 -> slotNo rid0 <> numOfSlots p ->
       GetRecord p' rid0 buf l = GetRecord p rid0 buf l).
Proof.
  split.
  - intros raw pn k Hk. simpl in Hk. lia.
  - intros p recPtr len rid p' rid' Habove Hlen H.
    destruct (InsertRecord_OK_inv _ _ _ _ _ _ H) as [_ [_ ->]].
    split.
    + intros k Hk. cbn [numOfSlots slots fillPtr] in *. unfold store.
      destruct (Z.eqb_spec k (numOfSlots p)) as [-> | Hne]; cbn [offset].
      * lia.
      * intros Hlive. pose proof (Habove k ltac:(lia) Hlive). lia.
    + intros rid0 buf l H0 Hne.
      unfold GetRecord. cbn [pid numOfSlots slots data].
      destruct (negb (pageNo rid0 =? pid p)); [reflexivity |].
      assert (Hs : store (slots p) (numOfSlots p)
                     (mkSlot (HEAPPAGE_DATA_SIZE - (fillPtr p + len)) len)
                     (slotNo rid0) = slots p (slotNo rid0)).
      { unfold store.
        destruct (Z.eqb_spec (slotNo rid0) (numOfSlots p)); [contradiction |].
        reflexivity. }
      rewrite Hs.
      destruct (Z.geb_spec (slotNo rid0) (numOfSlots p + 1));
        destruct (Z.geb_spec (slotNo rid0) (numOfSlots p)); try lia;
        [reflexivity |].
      cbn [orb].
      destruct (Z.eqb_spec (offset (slots p (slotNo rid0))) (-1));
        [reflexivity |].
      pose proof (Habove (slotNo rid0) ltac:(lia) ltac:(assumption)).
      f_equal. f_equal. apply memcpy_out_ext.
      intros t Ht. unfold memcpy_in.
      destruct (Z.ltb_spec (offset (slots p (slotNo rid0)) + t)
                  (HEAPPAGE_DATA_SIZE - (fillPtr p + len) + len)); [lia |].
      rewrite andb_false_r. reflexivity.
Qed.

End Further.

(** ** The further properties at work on the concrete page *)

Lemma GetNumOfRecords_counts_scan_witness :
  GetNumOfRecords Run.first_deleted = 1 /\
  option_map (fun l => Z.of_nat (List.length l))
             (all_records 2 Run.first_deleted Run.no_rid) = Some 1.
Proof.
  destruct (GetNumOfRecords_counts_scan Run.first_deleted) as [Hc Hs].
  - vm_compute. discriminate.
  - split; [exact Hc |]. apply (Hs 2%nat Run.no_rid). vm_compute. lia.
Defined.

Lemma IsEmpty_iff_no_records_witness :
  IsEmpty Run.empty_page = true <-> GetNumOfRecords Run.empty_page = 0.
Proof.
  apply (IsEmpty_iff_no_records Run.empty_page). vm_compute. discriminate.
Defined.

Lemma ReturnRecord_GetRecord_witness :
  GetRecord Run.two_records Run.rid1 [] 0
  = (OK, memcpy_out (data Run.two_records) 990 6, 6).
Proof.
  apply (proj2 (proj2 (ReturnRecord_GetRecord Run.two_records Run.rid1
                         [] 0 0))).
  reflexivity.
Defined.

Lemma scan_results_are_valid_witness :
  fst (fst (GetRecord Run.first_deleted Run.rid1 [] 0)) = OK /\
  offset (slots Run.first_deleted 0) = -1.
Proof.
  destruct (proj1 (scan_results_are_valid Run.first_deleted [] 0)
              Run.no_rid Run.rid1) as [_ [_ [Hget Hskip]]].
  - reflexivity.
  - split; [exact Hget |]. apply Hskip. simpl. lia.
Defined.

Lemma DeleteRecord_then_not_found_witness :
  GetRecord Run.first_deleted Run.rid0 [] 0 = (FAIL, [], 0) /\
  DeleteRecord Run.first_deleted Run.rid0 = (FAIL, Run.first_deleted) /\
  AvailableSpace Run.first_deleted = AvailableSpace Run.two_records + 4 /\
  numOfSlots Run.first_deleted = 2.
Proof.
  apply (DeleteRecord_then_not_found Run.two_records Run.rid0 [] 0).
  reflexivity.
Defined.

Lemma DeleteRecord_last_slot_witness :
  GetRecord Run.second_deleted Run.rid0 [] 0
  = GetRecord Run.two_records Run.rid0 [] 0.
Proof.
  destruct (DeleteRecord_last_slot Run.two_records Run.rid1)
    as [_ [_ Hget]].
  - reflexivity.
  - vm_compute. discriminate.
  - apply Hget. simpl. lia.
Defined.

Lemma DeleteRecord_fixed_length_stable_witness :
  GetRecord (snd (DeleteRecord Run.three_equal Run.rid0)) Run.rid1 [] 0
  = GetRecord Run.three_equal Run.rid1 [] 0 /\
  GetRecord (snd (DeleteRecord Run.three_equal Run.rid1)) Run.rid0 [] 0
  = GetRecord Run.three_equal Run.rid0 [] 0.
Proof.
  split.
  - destruct (DeleteRecord_fixed_length_stable Run.three_equal Run.rid0)
      as [Hlater _].
    + reflexivity.
    + vm_compute. discriminate.
    + intros k k' Hk. change (slotNo Run.rid0) with 0 in Hk.
      change (numOfSlots Run.three_equal) with 3 in Hk.
      assert (k = 1) as -> by lia. assert (k' = 2) as -> by lia.
      vm_compute. discriminate.
    + apply Hlater.
      * vm_compute. split; reflexivity.
      * vm_compute. discriminate.
      * vm_compute. discriminate.
  - destruct (DeleteRecord_fixed_length_stable Run.three_equal Run.rid1)
      as [_ Hearlier].
    + reflexivity.
    + vm_compute. discriminate.
    + intros k k' Hk. change (slotNo Run.rid1) with 1 in Hk.
      change (numOfSlots Run.three_equal) with 3 in Hk. lia.
    + apply Hearlier.
      * vm_compute. reflexivity.
      * intros k' Hk. change (slotNo Run.rid1) with 1 in Hk.
        change (numOfSlots Run.three_equal) with 3 in Hk.
        assert (k' = 2) as -> by lia. vm_compute. discriminate.
Defined.

Lemma CompactSlotDir_directory_witness :
  0 <= numOfSlots Run.compacted <= 2 /\
  data Run.compacted = data Run.first_deleted.
Proof.
  destruct (CompactSlotDir_directory (cfg := Run.config) 1
              Run.first_deleted Run.compacted)
    as [Hn [_ [Hd _]]].
  - vm_compute. reflexivity.
  - split; [exact Hn | exact Hd].
Defined.

Lemma CompactSlotDir_record_count_witness :
  GetNumOfRecords Run.first_deleted - 1 <= numOfSlots Run.compacted
  <= GetNumOfRecords Run.first_deleted /\
  GetNumOfRecords Run.compacted = numOfSlots Run.compacted.
Proof.
  apply (CompactSlotDir_record_count (cfg := Run.config) 1
           Run.first_deleted Run.compacted).
  - vm_compute. discriminate.
  - vm_compute. reflexivity.
Defined.

Lemma InsertRecord_above_fill_line_witness :
  above_fill_line (cfg := Run.config) Run.one_record /\
  GetRecord Run.two_records Run.rid0 [] 0
  = GetRecord Run.one_record Run.rid0 [] 0.
Proof.
  destruct (InsertRecord_above_fill_line (cfg := Run.config))
    as [Hinit Hstep].
  destruct (Hstep Run.empty_page Run.AAAA 4 Run.no_rid Run.one_record
              Run.rid0 (Hinit Run.zeroed 7)) as [H1 _].
  - vm_compute. discriminate.
  - reflexivity.
  - split; [exact H1 |].
    destruct (Hstep Run.one_record Run.BBBBBB 6 Run.no_rid Run.two_records
                Run.rid1 H1) as [_ Hget].
    + vm_compute. discriminate.
    + reflexivity.
    + apply Hget.
      * vm_compute. discriminate.
      * vm_compute. discriminate.
Defined.

